(** * Particle_Simulation: a shallow embedding of [src/main.cpp]

    The physics core of the program (classes [Particle] and
    [ParticleSystem]) is embedded function by function.

    Numbers.  The C++ type [float] is idealised as the real numbers [R] of
    the Standard Library: rounding, infinities and NaN are not modelled, and
    [std::sqrt], [std::cos], [std::sin] are the real functions.  In [R]
    division is total ([x / 0 = 0]); where a claim is about the divisors
    themselves, module [Checked] re-runs the same code with a division that
    fails on a zero divisor.  [int] values are [Z], [sf::Uint8] channels are
    [Z] values in [0, 255].

    State.  Methods that mutate [*this] take the object and return the new
    one.  [rand()] reads a tape of draws through a cursor (module [Rand]). *)

From Stdlib Require Import Reals Lra Lia ZArith List.
From stdpp Require Import base list.

Open Scope R_scope.

(** ** Global constants (main.cpp, lines 7-13) *)

Definition WIDTH : Z := 1200.
Definition HEIGHT : Z := 800.
Definition GRAVITY : R := 9.81.
Definition DAMPING : R := 0.99.
Definition ATTRACTION : R := 50.
Definition REPULSION : R := 10.
Definition MAX_SPEED : R := 500.

(** ** sf::Vector2f, sf::Color, sf::Vertex *)

Module Vector2f.
Record t : Type := mk { x : R; y : R }.

(** [operator+], [operator-], [operator*(v, s)], [operator/(v, s)] *)
Definition add (l r : t) : t := mk (x l + x r) (y l + y r).
Definition sub (l r : t) : t := mk (x l - x r) (y l - y r).
Definition mul (l : t) (s : R) : t := mk (x l * s) (y l * s).
Definition div (l : t) (s : R) : t := mk (x l / s) (y l / s).

End Vector2f.

Module Color.
Record t : Type := mk { r : Z; g : Z; b : Z; a : Z }.

(** [sf::Color(r, g, b)]: alpha defaults to 255 *)
Definition rgb (r g b : Z) : t := mk r g b 255.
End Color.

Module Vertex.
Record t : Type := mk { position : Vector2f.t; color : Color.t }.
End Vertex.

(** ** rand() *)

Module Rand.
(** The generator is a tape of draws and a cursor on it. *)
Record state : Type := mkState { tape : nat -> Z; cursor : nat }.

Definition M (A : Type) : Type := state -> A * state.

Definition ret {A} (v : A) : M A := fun s => (v, s).
Definition bind {A B} (m : M A) (k : A -> M B) : M B :=
  fun s => let (v, s') := m s in k v s'.

Definition rand : M Z :=
  fun s => (tape s (cursor s), mkState (tape s) (S (cursor s))).
End Rand.

Notation "'let*' v ':=' m 'in' k" := (Rand.bind m (fun v => k))
  (at level 10, v name, m at level 100, k at level 200).

(** [static_cast<sf::Uint8>(f)] for [f] in the representable range:
    truncation toward zero. *)
Definition toUint8 (f : R) : Z :=
  if Rle_dec 0 f then Int_part f else (- Int_part (- f))%Z.

(** [std::fmod(x, y)]: [x - n * y], where [n] is the quotient [x / y]
    with its fractional part cut off. *)
Definition truncate (f : R) : Z :=
  if Rle_dec 0 f then Int_part f else (- Int_part (- f))%Z.

Definition fmod (x y : R) : R := x - IZR (truncate (x / y)) * y.

(** [sf::CircleShape], as far as [Particle::draw] sets it: the radius, the
    position of the top-left corner of the bounding box, the fill color. *)
Module CircleShape.
Record t : Type := mk {
  radius : R;
  position : Vector2f.t;
  fillColor : Color.t
}.
End CircleShape.

(** ** class Particle (main.cpp, lines 15-105) *)

Module Particle.
Record t : Type := mk {
  position : Vector2f.t;
  velocity : Vector2f.t;
  radius : R;
  baseColor : Color.t;
  mass : R
}.

Definition set_velocity (v : Vector2f.t) (p : t) : t :=
  mk (position p) v (radius p) (baseColor p) (mass p).

(** Constructor, lines 23-25.  The three [rand()] calls are arguments of
    one call, so C++ leaves their order open; they are drawn left to
    right here. *)
Definition new (x y r : R) : Rand.M t :=
  let* c1 := Rand.rand in
  let* c2 := Rand.rand in
  let* c3 := Rand.rand in
  Rand.ret (mk (Vector2f.mk x y) (Vector2f.mk 0 0) r
               (Color.rgb (Z.rem c1 255) (Z.rem c2 255) (Z.rem c3 255))
               (r * r)).

(** [limitVelocity], lines 66-72 *)
Definition limitVelocity (vel : Vector2f.t) : Vector2f.t :=
  let speed := sqrt (Vector2f.x vel * Vector2f.x vel
                     + Vector2f.y vel * Vector2f.y vel) in
  if Rgt_dec speed MAX_SPEED
  then Vector2f.mul (Vector2f.div vel speed) MAX_SPEED
  else vel.

(** One axis of the boundary test, lines 32-38 and 40-46: the new
    coordinate and the new velocity component. *)
Definition bounce (limit : Z) (radius pos vel : R) : R * R :=
  if Rlt_dec (pos - radius) 0 then (radius, - vel * DAMPING)
  else if Rgt_dec (pos + radius) (IZR limit)
       then (IZR limit - radius, - vel * DAMPING)
       else (pos, vel).

(** [update], lines 27-47 *)
Definition update (dt : R) (p : t) : t :=
  let velocity :=
    Vector2f.mk (Vector2f.x (velocity p))
                (Vector2f.y (velocity p) + GRAVITY * dt) in
  let velocity := limitVelocity velocity in
  let position := Vector2f.add (position p) (Vector2f.mul velocity dt) in
  let '(px, vx) :=
    bounce WIDTH (radius p) (Vector2f.x position) (Vector2f.x velocity) in
  let '(py, vy) :=
    bounce HEIGHT (radius p) (Vector2f.y position) (Vector2f.y velocity) in
  mk (Vector2f.mk px py) (Vector2f.mk vx vy)
     (radius p) (baseColor p) (mass p).

(** [applyForce], lines 49-51 *)
Definition applyForce (force : Vector2f.t) (dt : R) (p : t) : t :=
  set_velocity
    (Vector2f.add (velocity p) (Vector2f.mul force (dt / mass p))) p.

(** [lo <= H && H < hi], the test of each sector in [HSVtoRGB] *)
Definition inSector (H lo hi : R) : bool :=
  if Rge_dec H lo then (if Rlt_dec H hi then true else false) else false.

(** [HSVtoRGB], lines 74-104 *)
Definition HSVtoRGB (H S V : R) : Color.t :=
  let C := V * S in
  let X := C * (1 - Rabs (fmod (H / 60) 2 - 1)) in
  let m := V - C in
  let '(Rs, Gs, Bs) :=
    if inSector H 0 60 then (C, X, 0)
    else if inSector H 60 120 then (X, C, 0)
    else if inSector H 120 180 then (0, C, X)
    else if inSector H 180 240 then (0, X, C)
    else if inSector H 240 300 then (X, 0, C)
    else (C, 0, X) in
  Color.rgb (toUint8 ((Rs + m) * 255))
            (toUint8 ((Gs + m) * 255))
            (toUint8 ((Bs + m) * 255)).

(** [draw], lines 53-63: the shape handed to [window.draw]. *)
Definition draw (p : t) : CircleShape.t :=
  let speed := sqrt (Vector2f.x (velocity p) * Vector2f.x (velocity p)
                     + Vector2f.y (velocity p) * Vector2f.y (velocity p)) in
  let hue := (speed / MAX_SPEED) * 360 in
  let color := HSVtoRGB hue 1 1 in
  CircleShape.mk (radius p)
    (Vector2f.sub (position p) (Vector2f.mk (radius p) (radius p)))
    color.
End Particle.

(** ** class ParticleSystem (main.cpp, lines 107-172) *)

Module ParticleSystem.
(** [connections] is an [sf::VertexArray] of primitive type [sf::Lines]:
    vertices 2k and 2k+1 are the two ends of segment k. *)
Record t : Type := mk {
  particles : list Particle.t;
  connections : list Vertex.t
}.

(** [ParticleSystem()], line 113 *)
Definition empty : t := mk [] [].

(** [addParticle], lines 115-117 *)
Definition addParticle (x y radius : R) (s : t) : Rand.M t :=
  let* p := Particle.new x y radius in
  Rand.ret (mk (particles s ++ [p]) (connections s)).

(** Lines 123-128: the force that line 129 hands to [applyForce], or
    [None] when the test of line 126 fails. *)
Definition pairForce (particle other : Particle.t) : option Vector2f.t :=
  let direction :=
    Vector2f.sub (Particle.position other) (Particle.position particle) in
  let distance := sqrt (Vector2f.x direction * Vector2f.x direction
                        + Vector2f.y direction * Vector2f.y direction) in
  if Rgt_dec distance 0 then
    if Rlt_dec distance 100 then
      let force := Vector2f.div direction distance in
      let strength :=
        ATTRACTION / (distance * distance) - REPULSION / distance in
      Some (Vector2f.mul force strength)
    else None
  else None.

(** Lines 123-130: the body of the inner loop for two distinct objects. *)
Definition interact (dt : R) (particle other : Particle.t) : Particle.t :=
  match pairForce particle other with
  | Some force => Particle.applyForce force dt particle
  | None => particle
  end.

(** Lines 121-132: the inner loop run for the particle at index [i].
    [others] is what is left of the vector, [j] the index of its head;
    [&particle != &other] is [i <> j].  The loop writes to [particle]
    only, so every [other] it reads is as the vector held it when the loop
    started. *)
Fixpoint forEachOther (dt : R) (i j : nat) (others : list Particle.t)
    (particle : Particle.t) : Particle.t :=
  match others with
  | [] => particle
  | other :: rest =>
      forEachOther dt i (S j) rest
        (if Nat.eqb i j then particle else interact dt particle other)
  end.

(** Lines 120-134: one turn of the outer loop, on the particle at index
    [i], written back in place. *)
Definition visit (dt : R) (ps : list Particle.t) (i : nat)
    : list Particle.t :=
  match ps !! i with
  | Some particle =>
      let particle := forEachOther dt i 0 ps particle in
      let particle := Particle.update dt particle in
      <[i := particle]> ps
  | None => ps
  end.

(** Lines 147-151: what one pair appends to [connections]. *)
Definition connect (pi pj : Particle.t) : list Vertex.t :=
  let distance :=
    sqrt ((Vector2f.x (Particle.position pi)
           - Vector2f.x (Particle.position pj)) ^ 2
          + (Vector2f.y (Particle.position pi)
             - Vector2f.y (Particle.position pj)) ^ 2) in
  if Rlt_dec distance 100 then
    let alpha := toUint8 (255 * (1 - distance / 100)) in
    [ Vertex.mk (Particle.position pi) (Color.mk 255 255 255 alpha);
      Vertex.mk (Particle.position pj) (Color.mk 255 255 255 alpha) ]
  else [].

(** [updateConnections], lines 139-154: [clear()], then [i] from 0 and
    [j] from [i + 1], both below [particles.size()]. *)
Definition updateConnections (ps : list Particle.t) : list Vertex.t :=
  let n := length ps in
  foldl (fun conns i =>
    foldl (fun conns j =>
      match ps !! i, ps !! j with
      | Some pi, Some pj => conns ++ connect pi pj
      | _, _ => conns
      end) conns (seq (S i) (n - S i)))
    [] (seq 0 n).

(** [update], lines 119-137 *)
Definition update (dt : R) (s : t) : t :=
  let ps := foldl (visit dt) (particles s) (seq 0 (length (particles s))) in
  mk ps (updateConnections ps).

(** What [window.draw] receives: the vertex array or one circle. *)
Inductive Drawable : Type :=
| Lines (vertices : list Vertex.t)
| Circle (shape : CircleShape.t).

(** [draw], lines 156-161: the calls of [window.draw], in order. *)
Definition draw (s : t) : list Drawable :=
  Lines (connections s)
  :: map (fun p => Circle (Particle.draw p)) (particles s).

Section AddParticlesAtMouse.
(** [RAND_MAX] comes from <cstdlib>, not from this repository. *)
Variable RAND_MAX : Z.

(** Lines 165-169: one turn of the loop. *)
Definition spawn (mouseX mouseY : Z) (s : t) : Rand.M t :=
  let* r1 := Rand.rand in
  let angle := IZR r1 / IZR RAND_MAX * 2 * PI in
  let* r2 := Rand.rand in
  let distance := IZR r2 / IZR RAND_MAX * 50 in
  let x := IZR mouseX + cos angle * distance in
  let y := IZR mouseY + sin angle * distance in
  let* r3 := Rand.rand in
  addParticle x y (3 + IZR r3 / IZR RAND_MAX * 5) s.

Fixpoint spawnLoop (n : nat) (mouseX mouseY : Z) (s : t) : Rand.M t :=
  match n with
  | O => Rand.ret s
  | S n' =>
      let* s' := spawn mouseX mouseY s in
      spawnLoop n' mouseX mouseY s'
  end.

(** [addParticlesAtMouse], lines 163-171: [i] runs from 0 while
    [i < count], so a negative [count] adds nothing. *)
Definition addParticlesAtMouse (mouseX mouseY : Z) (count : Z) (s : t)
    : Rand.M t :=
  spawnLoop (Z.to_nat count) mouseX mouseY s.
End AddParticlesAtMouse.
End ParticleSystem.

(** ** main (main.cpp, lines 174-210)

    The inputs of a run are the values that [dis(gen)] returns, the draws
    of [rand()], and frame by frame the pending window events and the
    time [clock.restart()] reports.  A list of frames is a finite prefix of
    a run. *)

Module Main.
(** The events [main] tells apart.  A left press carries the mouse
    position that [sf::Mouse::getPosition] returns while it is handled. *)
Inductive Event : Type :=
| Closed
| LeftPressed (mouseX mouseY : Z)
| Other.

Record Frame : Type := mkFrame { events : list Event; dt : R }.

Section Program.
Variable RAND_MAX : Z.
(** [dis k] is the value of the [k]-th call of [dis(gen)]. *)
Variable dis : nat -> R.

(** Lines 183-185, [n] turns left, [k] calls of [dis(gen)] made so far.
    The three calls are arguments of one call, so C++ leaves their order
    open; they are taken left to right here. *)
Fixpoint populate (n k : nat) (s : ParticleSystem.t)
    : Rand.M ParticleSystem.t :=
  match n with
  | O => Rand.ret s
  | S n' =>
      let* s' :=
        ParticleSystem.addParticle
          (dis k) (dis (k + 1)) (3 + dis (k + 2) / 100) s in
      populate n' (k + 3) s'
  end.

(** Lines 189-198: the event loop of one frame.  The flag tells whether
    the window is still open; once [window.close()] has run, SFML's
    [pollEvent] returns false, and the events behind are not handled. *)
Fixpoint pollEvents (evs : list Event) (s : ParticleSystem.t)
    : Rand.M (ParticleSystem.t * bool) :=
  match evs with
  | [] => Rand.ret (s, true)
  | Closed :: _ => Rand.ret (s, false)
  | LeftPressed mouseX mouseY :: rest =>
      let* s' :=
        ParticleSystem.addParticlesAtMouse RAND_MAX mouseX mouseY 10 s in
      pollEvents rest s'
  | Other :: rest => pollEvents rest s
  end.

(** Lines 188-207: one turn of the main loop; what is drawn is
    [ParticleSystem.draw] of the state it leaves. *)
Definition frame (f : Frame) (s : ParticleSystem.t)
    : Rand.M (ParticleSystem.t * bool) :=
  let* polled := pollEvents (events f) s in
  Rand.ret (ParticleSystem.update (dt f) (fst polled), snd polled).

(** The main loop over the frames given; it ends early when the window
    is closed. *)
Fixpoint loop (frames : list Frame) (s : ParticleSystem.t)
    : Rand.M ParticleSystem.t :=
  match frames with
  | [] => Rand.ret s
  | f :: rest =>
      let* r := frame f s in
      if snd r then loop rest (fst r) else Rand.ret (fst r)
  end.

Definition main (frames : list Frame) : Rand.M ParticleSystem.t :=
  let* s := populate 100 0 ParticleSystem.empty in
  loop frames s.
End Program.
End Main.

(** ** The same code with a division that can fail

    Every function of the source that divides, or calls one that does, is
    run again here with [Checked.div] in place of [/]: [None] means that
    some divisor was zero.  Everything else is as above. *)

Module Checked.
Definition div (a b : R) : option R :=
  if Req_dec_T b 0 then None else Some (a / b).

(** [operator/(v, s)] divides both components by [s]. *)
Definition vdiv (l : Vector2f.t) (s : R) : option Vector2f.t :=
  qx ← div (Vector2f.x l) s;
  qy ← div (Vector2f.y l) s;
  Some (Vector2f.mk qx qy).

Definition limitVelocity (vel : Vector2f.t) : option Vector2f.t :=
  let speed := sqrt (Vector2f.x vel * Vector2f.x vel
                     + Vector2f.y vel * Vector2f.y vel) in
  if Rgt_dec speed MAX_SPEED
  then q ← vdiv vel speed; Some (Vector2f.mul q MAX_SPEED)
  else Some vel.

Definition update (dt : R) (p : Particle.t) : option Particle.t :=
  let velocity :=
    Vector2f.mk (Vector2f.x (Particle.velocity p))
                (Vector2f.y (Particle.velocity p) + GRAVITY * dt) in
  velocity ← limitVelocity velocity;
  let position :=
    Vector2f.add (Particle.position p) (Vector2f.mul velocity dt) in
  let '(px, vx) :=
    Particle.bounce WIDTH (Particle.radius p)
      (Vector2f.x position) (Vector2f.x velocity) in
  let '(py, vy) :=
    Particle.bounce HEIGHT (Particle.radius p)
      (Vector2f.y position) (Vector2f.y velocity) in
  Some (Particle.mk (Vector2f.mk px py) (Vector2f.mk vx vy)
          (Particle.radius p) (Particle.baseColor p) (Particle.mass p)).

Definition applyForce (force : Vector2f.t) (dt : R) (p : Particle.t)
    : option Particle.t :=
  k ← div dt (Particle.mass p);
  Some (Particle.set_velocity
          (Vector2f.add (Particle.velocity p) (Vector2f.mul force k)) p).

(** [Some None]: the test of line 126 failed and nothing was divided. *)
Definition pairForce (particle other : Particle.t)
    : option (option Vector2f.t) :=
  let direction :=
    Vector2f.sub (Particle.position other) (Particle.position particle) in
  let distance := sqrt (Vector2f.x direction * Vector2f.x direction
                        + Vector2f.y direction * Vector2f.y direction) in
  if Rgt_dec distance 0 then
    if Rlt_dec distance 100 then
      force ← vdiv direction distance;
      a ← div ATTRACTION (distance * distance);
      r ← div REPULSION distance;
      Some (Some (Vector2f.mul force (a - r)))
    else Some None
  else Some None.

Definition interact (dt : R) (particle other : Particle.t)
    : option Particle.t :=
  f ← pairForce particle other;
  match f with
  | Some force => applyForce force dt particle
  | None => Some particle
  end.

Fixpoint forEachOther (dt : R) (i j : nat) (others : list Particle.t)
    (particle : Particle.t) : option Particle.t :=
  match others with
  | [] => Some particle
  | other :: rest =>
      particle ← (if Nat.eqb i j then Some particle
                  else interact dt particle other);
      forEachOther dt i (S j) rest particle
  end.

Definition visit (dt : R) (ps : option (list Particle.t)) (i : nat)
    : option (list Particle.t) :=
  ps ← ps;
  match ps !! i with
  | Some particle =>
      particle ← forEachOther dt i 0 ps particle;
      particle ← update dt particle;
      Some (<[i := particle]> ps)
  | None => Some ps
  end.

Definition connect (pi pj : Particle.t) : option (list Vertex.t) :=
  let distance :=
    sqrt ((Vector2f.x (Particle.position pi)
           - Vector2f.x (Particle.position pj)) ^ 2
          + (Vector2f.y (Particle.position pi)
             - Vector2f.y (Particle.position pj)) ^ 2) in
  if Rlt_dec distance 100 then
    q ← div distance 100;
    let alpha := toUint8 (255 * (1 - q)) in
    Some [ Vertex.mk (Particle.position pi) (Color.mk 255 255 255 alpha);
           Vertex.mk (Particle.position pj) (Color.mk 255 255 255 alpha) ]
  else Some [].

Definition updateConnections (ps : list Particle.t)
    : option (list Vertex.t) :=
  let n := length ps in
  foldl (fun conns i =>
    foldl (fun conns j =>
      conns ← conns;
      match ps !! i, ps !! j with
      | Some pi, Some pj => segment ← connect pi pj; Some (conns ++ segment)
      | _, _ => Some conns
      end) conns (seq (S i) (n - S i)))
    (Some []) (seq 0 n).

End Checked.

(** ** The specification's vocabulary

    The notions the claims are stated with (magnitude, distance, the steps
    of an update, the two-phase algorithm, the segments of close pairs)
    follow the words of the specification, not the code; the theorems
    below compare the two.  The module also names the intermediate states
    of the loops that the proofs speak about. *)

Module Spec.
(** Magnitude of a vector; the speed of a particle is the magnitude of
    its velocity. *)
Definition magnitude (v : Vector2f.t) : R :=
  sqrt (Vector2f.x v * Vector2f.x v + Vector2f.y v * Vector2f.y v).

(** Center distance of two particles. *)
Definition distance (a b : Particle.t) : R :=
  magnitude (Vector2f.sub (Particle.position b) (Particle.position a)).

(** Step 1 of [Particle.update]: [velocity.y += GRAVITY * dt]. *)
Definition applyGravity (dt : R) (v : Vector2f.t) : Vector2f.t :=
  Vector2f.mk (Vector2f.x v) (Vector2f.y v + GRAVITY * dt).


(** Step 3: [position += velocity * dt]. *)
Definition integrate (dt : R) (pos v : Vector2f.t) : Vector2f.t :=
  Vector2f.add pos (Vector2f.mul v dt).

(** Step 4, for one axis with upper wall [limit]: from coordinate [pos]
    and velocity component [vel] to [pos'] and [vel']. *)
Definition hitsLow (radius pos : R) : Prop := pos - radius < 0.
Definition hitsHigh (limit : Z) (radius pos : R) : Prop :=
  pos + radius > IZR limit.


(** A particle lies inside the simulation area. *)
Definition contained (p : Particle.t) : Prop :=
  Particle.radius p <= Vector2f.x (Particle.position p)
    <= IZR WIDTH - Particle.radius p /\
  Particle.radius p <= Vector2f.y (Particle.position p)
    <= IZR HEIGHT - Particle.radius p.

(** The two-phase reading of [ParticleSystem.update]: a first loop applies
    all pairwise forces to every particle, in place and in collection
    order; a second loop calls [Particle.update] on every particle. *)
Definition applyForcesAt (dt : R) (ps : list Particle.t) (i : nat)
    : list Particle.t :=
  match ps !! i with
  | Some particle => <[i := ParticleSystem.forEachOther dt i 0 ps particle]> ps
  | None => ps
  end.

Definition twoPhaseUpdate (dt : R) (s : ParticleSystem.t)
    : ParticleSystem.t :=
  let n := length (ParticleSystem.particles s) in
  let forced :=
    foldl (applyForcesAt dt) (ParticleSystem.particles s) (seq 0 n) in
  let ps := map (Particle.update dt) forced in
  ParticleSystem.mk ps (ParticleSystem.updateConnections ps).

(** The interleaved reading: the forces on a particle come from the
    particles before it as they are after their own update, and from
    the particles behind it as they were. *)
Definition forcesFrom (dt : R) (others : list Particle.t)
    (particle : Particle.t) : Particle.t :=
  foldl (ParticleSystem.interact dt) particle others.

(** The vector after the first [k] turns of the outer loop of
    [ParticleSystem.update]. *)
Definition visited (dt : R) (ps : list Particle.t) (k : nat)
    : list Particle.t :=
  foldl (ParticleSystem.visit dt) ps (seq 0 k).

(** The strength of the pairwise force at distance [d]. *)
Definition strength (d : R) : R := ATTRACTION / (d * d) - REPULSION / d.

(** The force on [particle] from [other]: zero when none is applied. *)
Definition forceOn (particle other : Particle.t) : Vector2f.t :=
  match ParticleSystem.pairForce particle other with
  | Some f => f
  | None => Vector2f.mk 0 0
  end.

(** The connection alpha as the specification writes it, a real number. *)
Definition alphaFormula (d : R) : R := 255 * (1 - d / 100).

(** The segment of a pair of particles at distance below 100. *)
Definition segment (pi pj : Particle.t) : list Vertex.t :=
  let alpha := Int_part (alphaFormula (distance pi pj)) in
  [ Vertex.mk (Particle.position pi) (Color.mk 255 255 255 alpha);
    Vertex.mk (Particle.position pj) (Color.mk 255 255 255 alpha) ].





(** What the pair of indices [(i, j)] appends to [connections]. *)
Definition connectAt (ps : list Particle.t) (i j : nat) : list Vertex.t :=
  match ps !! i, ps !! j with
  | Some pi, Some pj => ParticleSystem.connect pi pj
  | _, _ => []
  end.



(** The generator whose every draw is [v]. *)
Definition constantTape (v : Z) : Rand.state :=
  Rand.mkState (fun _ => v) 0.



(** Two states of one particle: radius, mass and base color agree. *)
Definition sameBody (p q : Particle.t) : Prop :=
  Particle.radius q = Particle.radius p /\
  Particle.mass q = Particle.mass p /\
  Particle.baseColor q = Particle.baseColor p.

(** The sum of the forces on [particle] from [others]. *)
Definition netForce (particle : Particle.t) (others : list Particle.t)
    : Vector2f.t :=
  foldl (fun acc other => Vector2f.add acc (forceOn particle other))
    (Vector2f.mk 0 0) others.

(** The opposite vector. *)
Definition opposite (v : Vector2f.t) : Vector2f.t :=
  Vector2f.mk (- Vector2f.x v) (- Vector2f.y v).


(** A value an [sf::Uint8] channel can hold. *)
Definition channel (z : Z) : Prop := (0 <= z <= 255)%Z.

(** The left presses that [Main.pollEvents] handles: those in front of
    the first [Closed]. *)
Fixpoint pressesIn (evs : list Main.Event) : nat :=
  match evs with
  | [] => 0
  | Main.Closed :: _ => 0
  | Main.LeftPressed _ _ :: rest => S (pressesIn rest)
  | Main.Other :: rest => pressesIn rest
  end.

Fixpoint closes (evs : list Main.Event) : bool :=
  match evs with
  | [] => false
  | Main.Closed :: _ => true
  | _ :: rest => closes rest
  end.

(** The left presses handled over the frames of a run. *)
Fixpoint pressesHandled (frames : list Main.Frame) : nat :=
  match frames with
  | [] => 0
  | f :: rest =>
      pressesIn (Main.events f)
      + (if closes (Main.events f) then 0 else pressesHandled rest)
  end.

(** A particle as the constructor builds it when every draw is 0. *)
Definition zeroTape : Rand.state := Rand.mkState (fun _ => 0%Z) 0.
Definition ball (x y r : R) : Particle.t :=
  fst (Particle.new x y r zeroTape).
End Spec.

(** * Theorems *)

Ltac constants :=
  unfold WIDTH, HEIGHT, GRAVITY, DAMPING, ATTRACTION, REPULSION, MAX_SPEED
    in *.

(** Settle the outermost comparison of the goal when its operands are
    numerals (or bounded by the hypotheses). *)
Ltac absurd_branch := try (exfalso; constants; lra).

Ltac settle_test :=
  match goal with
  | |- context [Rlt_dec ?a ?b] =>
      destruct (Rlt_dec a b) as [? | ?]; [absurd_branch | absurd_branch]
  | |- context [Rgt_dec ?a ?b] =>
      destruct (Rgt_dec a b) as [? | ?]; [absurd_branch | absurd_branch]
  end.

(** ** Square roots *)


Lemma magnitude_nonneg (v : Vector2f.t) : 0 <= Spec.magnitude v.
Proof. apply sqrt_pos. Qed.


(** [sqrt s] is [a] as soon as [a] is a non-negative root of [s]. *)
Lemma sqrt_is (s a : R) : 0 <= a -> a * a = s -> sqrt s = a.
Proof. intros Ha Hs. apply sqrt_lem_1; [rewrite <- Hs; nra | exact Ha | exact Hs]. Qed.

Lemma sqrt_at_most (s a : R) : 0 <= a -> s <= a * a -> sqrt s <= a.
Proof.
  intros Ha Hs. rewrite <- (sqrt_square a Ha). now apply sqrt_le_1_alt.
Qed.

Lemma sqrt_at_least (s a : R) : 0 <= a -> a * a <= s -> a <= sqrt s.
Proof.
  intros Ha Hs. rewrite <- (sqrt_square a Ha) at 1. now apply sqrt_le_1_alt.
Qed.


(** ** [Particle.limitVelocity] *)

Lemma limitVelocity_slow (v : Vector2f.t) :
  Spec.magnitude v <= MAX_SPEED -> Particle.limitVelocity v = v.
Proof.
  intros Hv. unfold Particle.limitVelocity.
  fold (Spec.magnitude v). destruct (Rgt_dec _ _) as [Hgt | _]; [lra | easy].
Qed.



(** ** [Particle.bounce] *)




(** ** [Particle.update], read off field by field *)

Lemma update_fields (dt : R) (p : Particle.t) :
  let v := Particle.limitVelocity
             (Spec.applyGravity dt (Particle.velocity p)) in
  let q := Spec.integrate dt (Particle.position p) v in
  let bx := Particle.bounce WIDTH (Particle.radius p)
              (Vector2f.x q) (Vector2f.x v) in
  let by_ := Particle.bounce HEIGHT (Particle.radius p)
              (Vector2f.y q) (Vector2f.y v) in
  Particle.update dt p
  = Particle.mk (Vector2f.mk (fst bx) (fst by_))
                (Vector2f.mk (snd bx) (snd by_))
                (Particle.radius p) (Particle.baseColor p) (Particle.mass p).
Proof.
  intros v q bx by_. unfold Particle.update.
  fold (Spec.applyGravity dt (Particle.velocity p)). fold v.
  fold (Spec.integrate dt (Particle.position p) v). fold q.
  fold bx. fold by_. now destruct bx, by_.
Qed.


Lemma magnitude_at_most (v : Vector2f.t) (a : R) :
  0 <= a ->
  Vector2f.x v * Vector2f.x v + Vector2f.y v * Vector2f.y v <= a * a ->
  Spec.magnitude v <= a.
Proof. intros. now apply sqrt_at_most. Qed.

(** ** C2: the steps of [Particle.update] *)


(** ** C4: the speed bound *)


(** ** C5: containment *)




(** ** What the methods leave alone *)

Lemma sameBody_refl (p : Particle.t) : Spec.sameBody p p.
Proof. now repeat split. Qed.

Lemma sameBody_trans (p q r : Particle.t) :
  Spec.sameBody p q -> Spec.sameBody q r -> Spec.sameBody p r.
Proof.
  unfold Spec.sameBody. intros (? & ? & ?) (? & ? & ?).
  repeat split; congruence.
Qed.

Lemma update_sameBody (dt : R) (p : Particle.t) :
  Spec.sameBody p (Particle.update dt p).
Proof. rewrite update_fields. now repeat split. Qed.

Lemma applyForce_sameBody (f : Vector2f.t) (dt : R) (p : Particle.t) :
  Spec.sameBody p (Particle.applyForce f dt p).
Proof. now repeat split. Qed.

Lemma applyForce_position (f : Vector2f.t) (dt : R) (p : Particle.t) :
  Particle.position (Particle.applyForce f dt p) = Particle.position p.
Proof. reflexivity. Qed.

Lemma interact_sameBody (dt : R) (p o : Particle.t) :
  Spec.sameBody p (ParticleSystem.interact dt p o).
Proof.
  unfold ParticleSystem.interact.
  destruct (ParticleSystem.pairForce p o);
    [apply applyForce_sameBody | apply sameBody_refl].
Qed.

Lemma interact_position (dt : R) (p o : Particle.t) :
  Particle.position (ParticleSystem.interact dt p o) = Particle.position p.
Proof.
  unfold ParticleSystem.interact.
  now destruct (ParticleSystem.pairForce p o).
Qed.

Lemma forcesFrom_sameBody (dt : R) (others : list Particle.t)
    (p : Particle.t) :
  Spec.sameBody p (Spec.forcesFrom dt others p).
Proof.
  revert p. induction others as [| o rest IH]; intros p; simpl.
  - apply sameBody_refl.
  - eapply sameBody_trans; [apply (interact_sameBody dt p o) | apply IH].
Qed.

Lemma forcesFrom_position (dt : R) (others : list Particle.t)
    (p : Particle.t) :
  Particle.position (Spec.forcesFrom dt others p) = Particle.position p.
Proof.
  unfold Spec.forcesFrom. revert p.
  induction others as [| o rest IH]; intros p; simpl; [easy |].
  now rewrite IH, interact_position.
Qed.

(** ** The inner loop is a fold over the other particles *)

Lemma forEachOther_past (dt : R) (others : list Particle.t) (i j : nat)
    (p : Particle.t) :
  (i < j)%nat ->
  ParticleSystem.forEachOther dt i j others p = Spec.forcesFrom dt others p.
Proof.
  revert j p. induction others as [| o rest IH]; intros j p Hij; simpl;
    [easy |].
  destruct (Nat.eqb_spec i j) as [-> | _]; [lia |].
  apply IH. lia.
Qed.

Lemma forEachOther_skips (dt : R) (others : list Particle.t) (i j : nat)
    (p : Particle.t) :
  (j <= i)%nat ->
  ParticleSystem.forEachOther dt i j others p
  = Spec.forcesFrom dt (take (i - j) others ++ drop (S (i - j)) others) p.
Proof.
  revert j p. induction others as [| o rest IH]; intros j p Hij; simpl.
  - now rewrite take_nil.
  - destruct (Nat.eqb_spec i j) as [-> | Hne].
    + rewrite Nat.sub_diag. simpl. rewrite drop_0.
      apply forEachOther_past. lia.
    + rewrite IH by lia.
      replace (i - j)%nat with (S (i - S j)) by lia. reflexivity.
Qed.

Lemma forEachOther_forcesFrom (dt : R) (ps : list Particle.t) (i : nat)
    (p : Particle.t) :
  ParticleSystem.forEachOther dt i 0 ps p
  = Spec.forcesFrom dt (take i ps ++ drop (S i) ps) p.
Proof. rewrite forEachOther_skips by lia. now rewrite Nat.sub_0_r. Qed.

(** ** The outer loop: its invariant after [k] turns *)

Lemma visited_S (dt : R) (ps : list Particle.t) (k : nat) :
  Spec.visited dt ps (S k) = ParticleSystem.visit dt (Spec.visited dt ps k) k.
Proof. unfold Spec.visited. now rewrite seq_S, foldl_app. Qed.

Lemma visit_length (dt : R) (ps : list Particle.t) (i : nat) :
  length (ParticleSystem.visit dt ps i) = length ps.
Proof.
  unfold ParticleSystem.visit. destruct (ps !! i); [| easy].
  apply length_insert.
Qed.

Lemma visited_length (dt : R) (ps : list Particle.t) (k : nat) :
  length (Spec.visited dt ps k) = length ps.
Proof.
  induction k as [| k IH]; [easy |].
  now rewrite visited_S, visit_length.
Qed.

Lemma visited_rest (dt : R) (ps : list Particle.t) (k : nat) :
  drop k (Spec.visited dt ps k) = drop k ps.
Proof.
  induction k as [| k IH]; [easy |].
  rewrite visited_S. unfold ParticleSystem.visit.
  destruct (Spec.visited dt ps k !! k) eqn:Hk.
  - rewrite drop_insert_lt by lia.
    replace (S k) with (k + 1)%nat by lia.
    now rewrite <- !drop_drop, IH.
  - replace (S k) with (k + 1)%nat by lia.
    now rewrite <- !drop_drop, IH.
Qed.

Lemma visited_later (dt : R) (ps : list Particle.t) (k i : nat) :
  (k <= i)%nat -> Spec.visited dt ps k !! i = ps !! i.
Proof.
  intros Hki. replace i with (k + (i - k))%nat by lia.
  now rewrite <- !lookup_drop, visited_rest.
Qed.

Lemma visited_prefix (dt : R) (ps : list Particle.t) (k i : nat) :
  (i <= k)%nat ->
  take i (Spec.visited dt ps (S k)) = take i (Spec.visited dt ps k).
Proof.
  intros Hik. rewrite visited_S. unfold ParticleSystem.visit.
  destruct (Spec.visited dt ps k !! k); [| easy].
  now apply take_insert_ge.
Qed.

Lemma visited_prefix_final (dt : R) (ps : list Particle.t) (k n i : nat) :
  (i <= k)%nat -> (k <= n)%nat ->
  take i (Spec.visited dt ps n) = take i (Spec.visited dt ps k).
Proof.
  intros Hik Hkn. induction n as [| n IH].
  - now replace k with 0%nat by lia.
  - destruct (Nat.eq_dec k (S n)) as [-> | Hne]; [easy |].
    rewrite visited_prefix by lia. apply IH. lia.
Qed.

(** The particle at index [k] after turn [k]. *)
Lemma visited_at (dt : R) (ps : list Particle.t) (k : nat) (p : Particle.t) :
  ps !! k = Some p ->
  Spec.visited dt ps (S k) !! k
  = Some (Particle.update dt
            (Spec.forcesFrom dt
               (take k (Spec.visited dt ps k) ++ drop (S k) ps) p)).
Proof.
  intros Hp. rewrite visited_S. unfold ParticleSystem.visit.
  rewrite visited_later, Hp by lia.
  rewrite list_lookup_insert_eq.
  - rewrite forEachOther_forcesFrom. do 4 f_equal.
    replace (S k) with (k + 1)%nat by lia.
    now rewrite <- !drop_drop, visited_rest.
  - rewrite visited_length. apply lookup_lt_is_Some. eauto.
Qed.

(** The particle at index [i] after the whole loop. *)
Lemma visited_final (dt : R) (ps : list Particle.t) (i : nat)
    (p : Particle.t) :
  ps !! i = Some p ->
  Spec.visited dt ps (length ps) !! i
  = Some (Particle.update dt
            (Spec.forcesFrom dt
               (take i (Spec.visited dt ps (length ps)) ++ drop (S i) ps)
               p)).
Proof.
  intros Hp.
  assert (Hi : (i < length ps)%nat) by (apply lookup_lt_is_Some; eauto).
  rewrite (visited_prefix_final dt ps i (length ps) i) by lia.
  rewrite <- (visited_at dt ps i p Hp).
  rewrite <- (lookup_take_lt _ (S i)) by lia.
  rewrite <- (lookup_take_lt (Spec.visited dt ps (S i)) (S i)) by lia.
  now rewrite (visited_prefix_final dt ps (S i) (length ps) (S i)) by lia.
Qed.

Lemma visited_sameBody (dt : R) (ps : list Particle.t) :
  Forall2 Spec.sameBody ps (Spec.visited dt ps (length ps)).
Proof.
  apply Forall2_same_length_lookup. split; [now rewrite visited_length |].
  intros i p q Hp Hq. rewrite (visited_final dt ps i p Hp) in Hq.
  injection Hq as <-.
  eapply sameBody_trans; [apply forcesFrom_sameBody | apply update_sameBody].
Qed.

(** ** The pairwise force, case by case *)

Lemma pairForce_near (particle other : Particle.t) :
  0 < Spec.distance particle other < 100 ->
  ParticleSystem.pairForce particle other
  = Some (Vector2f.mul
            (Vector2f.div
               (Vector2f.sub (Particle.position other)
                  (Particle.position particle))
               (Spec.distance particle other))
            (Spec.strength (Spec.distance particle other))).
Proof.
  intros [Hpos Hlt]. unfold ParticleSystem.pairForce.
  fold (Spec.magnitude (Vector2f.sub (Particle.position other)
                          (Particle.position particle))).
  fold (Spec.distance particle other).
  destruct (Rgt_dec _ _); [| lra]. destruct (Rlt_dec _ _); [| lra].
  reflexivity.
Qed.

Lemma pairForce_outside (particle other : Particle.t) :
  ~ 0 < Spec.distance particle other < 100 ->
  ParticleSystem.pairForce particle other = None.
Proof.
  intros Hout. unfold ParticleSystem.pairForce.
  fold (Spec.magnitude (Vector2f.sub (Particle.position other)
                          (Particle.position particle))).
  fold (Spec.distance particle other).
  destruct (Rgt_dec _ _); [| easy]. destruct (Rlt_dec _ _); [| easy].
  exfalso. apply Hout. lra.
Qed.

Lemma distance_is (a b : Particle.t) (d : R) :
  0 <= d ->
  d * d
  = (Vector2f.x (Particle.position b) - Vector2f.x (Particle.position a))
    * (Vector2f.x (Particle.position b) - Vector2f.x (Particle.position a))
    + (Vector2f.y (Particle.position b) - Vector2f.y (Particle.position a))
      * (Vector2f.y (Particle.position b) - Vector2f.y (Particle.position a))
  ->
  Spec.distance a b = d.
Proof. intros Hd Hsq. now apply sqrt_is. Qed.

Lemma distance_at_least (a b : Particle.t) (d : R) :
  0 <= d ->
  d * d
  <= (Vector2f.x (Particle.position b) - Vector2f.x (Particle.position a))
     * (Vector2f.x (Particle.position b) - Vector2f.x (Particle.position a))
     + (Vector2f.y (Particle.position b) - Vector2f.y (Particle.position a))
       * (Vector2f.y (Particle.position b) - Vector2f.y (Particle.position a))
  ->
  d <= Spec.distance a b.
Proof. intros Hd Hsq. now apply sqrt_at_least. Qed.

Lemma distance_nonneg (a b : Particle.t) : 0 <= Spec.distance a b.
Proof. apply magnitude_nonneg. Qed.

Ltac vec_eq :=
  unfold Vector2f.add, Vector2f.sub, Vector2f.mul, Vector2f.div; simpl;
  f_equal; constants; (lra || (field; lra)).


(** ** Two particles *)

Lemma update_pair (dt : R) (a b : Particle.t) (c : list Vertex.t) :
  ParticleSystem.particles
    (ParticleSystem.update dt (ParticleSystem.mk [a; b] c))
  = [ Particle.update dt (ParticleSystem.interact dt a b);
      Particle.update dt
        (ParticleSystem.interact dt b
           (Particle.update dt (ParticleSystem.interact dt a b))) ].
Proof. reflexivity. Qed.

Lemma twoPhaseUpdate_pair (dt : R) (a b : Particle.t) (c : list Vertex.t) :
  ParticleSystem.particles
    (Spec.twoPhaseUpdate dt (ParticleSystem.mk [a; b] c))
  = [ Particle.update dt (ParticleSystem.interact dt a b);
      Particle.update dt
        (ParticleSystem.interact dt b (ParticleSystem.interact dt a b)) ].
Proof. reflexivity. Qed.

Lemma interact_outside (dt : R) (particle other : Particle.t) :
  ~ 0 < Spec.distance particle other < 100 ->
  ParticleSystem.interact dt particle other = particle.
Proof.
  intros Hout. unfold ParticleSystem.interact.
  now rewrite pairForce_outside.
Qed.

Lemma interact_near (dt : R) (particle other : Particle.t) (d : R) :
  Spec.distance particle other = d -> 0 < d < 100 ->
  ParticleSystem.interact dt particle other
  = Particle.applyForce
      (Vector2f.mul
         (Vector2f.div
            (Vector2f.sub (Particle.position other)
               (Particle.position particle)) d)
         (Spec.strength d)) dt particle.
Proof.
  intros <- Hd. unfold ParticleSystem.interact.
  now rewrite pairForce_near.
Qed.

(** The x component of the velocity after [Particle.update] of a particle
    that is slow enough and away from the side walls. *)
Lemma update_velocity_x_free (dt : R) (p : Particle.t) :
  let v := Spec.applyGravity dt (Particle.velocity p) in
  Spec.magnitude v <= MAX_SPEED ->
  0 <= Vector2f.x (Particle.position p) + Vector2f.x v * dt
       - Particle.radius p ->
  Vector2f.x (Particle.position p) + Vector2f.x v * dt + Particle.radius p
    <= IZR WIDTH ->
  Vector2f.x (Particle.velocity (Particle.update dt p))
  = Vector2f.x (Particle.velocity p).
Proof.
  intros v Hslow Hlow Hhigh. rewrite update_fields. cbv zeta.
  fold v. rewrite limitVelocity_slow by exact Hslow.
  unfold Particle.bounce, Spec.integrate. subst v. simpl in *.
  now do 2 settle_test.
Qed.

(** ** C1: the order of forces and integration *)

(** C1 as stated fails.  Two particles of radius 1 at (100, 100) and
    (110, 100), [dt = 10]: the code integrates the first particle before it
    computes the force on the second, which by then is more than 100 away
    and feels nothing (x velocity 0); in the two-phase algorithm the second
    particle is pushed from distance 10 (x velocity 5). *)
Lemma update_differs_from_two_phase :
  let s := ParticleSystem.mk [Spec.ball 100 100 1; Spec.ball 110 100 1] [] in
  (exists q,
     ParticleSystem.particles (ParticleSystem.update 10 s) !! 1%nat = Some q
     /\ Vector2f.x (Particle.velocity q) = 0) /\
  (exists q,
     ParticleSystem.particles (Spec.twoPhaseUpdate 10 s) !! 1%nat = Some q
     /\ Vector2f.x (Particle.velocity q) = 5) /\
  ParticleSystem.update 10 s <> Spec.twoPhaseUpdate 10 s.
Proof.
  intros s.
  set (p0 := Spec.ball 100 100 1) in *. set (p1 := Spec.ball 110 100 1) in *.
  assert (Hd : Spec.distance p0 p1 = 10) by (apply distance_is; simpl; lra).
  assert (H0 : ParticleSystem.interact 10 p0 p1
               = Particle.set_velocity (Vector2f.mk (-5) 0) p0).
  { rewrite (interact_near 10 p0 p1 10 Hd) by lra.
    unfold Particle.applyForce, Spec.strength. f_equal. vec_eq. }
  assert (H1 : Particle.position (Particle.update 10 (ParticleSystem.interact 10 p0 p1))
               = Vector2f.mk 50 799).
  { rewrite H0, update_fields. simpl.
    rewrite limitVelocity_slow
      by (apply magnitude_at_most; simpl; constants; lra).
    unfold Particle.bounce. simpl. do 4 settle_test. simpl.
    f_equal; constants; lra. }
  assert (Hfar : ParticleSystem.interact 10 p1
                   (Particle.update 10 (ParticleSystem.interact 10 p0 p1))
                 = p1).
  { apply interact_outside. intros [_ Hlt].
    assert (100 <= Spec.distance p1
                     (Particle.update 10 (ParticleSystem.interact 10 p0 p1)))
      by (apply distance_at_least; rewrite ?H1; simpl; lra).
    lra. }
  assert (Hnear : ParticleSystem.interact 10 p1
                    (ParticleSystem.interact 10 p0 p1)
                  = Particle.set_velocity (Vector2f.mk 5 0) p1).
  { rewrite H0.
    rewrite (interact_near 10 p1 _ 10) by (try apply distance_is; simpl; lra).
    unfold Particle.applyForce, Spec.strength. f_equal. vec_eq. }
  assert (Ha : Vector2f.x (Particle.velocity (Particle.update 10 p1)) = 0).
  { rewrite update_velocity_x_free; [easy | | simpl; lra | simpl; constants; lra].
    apply magnitude_at_most; simpl; constants; lra. }
  assert (Hb : Vector2f.x
                 (Particle.velocity
                    (Particle.update 10
                       (Particle.set_velocity (Vector2f.mk 5 0) p1))) = 5).
  { rewrite update_velocity_x_free; [easy | | simpl; lra | simpl; constants; lra].
    apply magnitude_at_most; simpl; constants; lra. }
  assert (Hleft : ParticleSystem.particles (ParticleSystem.update 10 s) !! 1%nat
                  = Some (Particle.update 10 p1)).
  { unfold s. rewrite update_pair, Hfar. reflexivity. }
  assert (Hright : ParticleSystem.particles (Spec.twoPhaseUpdate 10 s) !! 1%nat
                   = Some (Particle.update 10
                             (Particle.set_velocity (Vector2f.mk 5 0) p1))).
  { unfold s. rewrite twoPhaseUpdate_pair, Hnear. reflexivity. }
  split; [eauto |]. split; [eauto |].
  intros Heq. rewrite Heq, Hright in Hleft. injection Hleft as Hq.
  rewrite Hq in Hb. lra.
Qed.

(** C1, amended.  [ParticleSystem.update dt] works particle by particle, in
    collection order: the particle at index [i] receives the pairwise forces
    of all other particles, in collection order, those before it as they are
    after their own [Particle.update dt] and those behind it as they were,
    and is then integrated by [Particle.update dt] at once, before the next
    particle is looked at; the collection keeps its length, and the
    connection list is regenerated from the resulting particles. *)
Theorem update_is_interleaved (dt : R) (s : ParticleSystem.t) :
  let s' := ParticleSystem.update dt s in
  length (ParticleSystem.particles s') = length (ParticleSystem.particles s)
  /\
  (forall (i : nat) (p : Particle.t),
     ParticleSystem.particles s !! i = Some p ->
     ParticleSystem.particles s' !! i
     = Some (Particle.update dt
               (Spec.forcesFrom dt
                  (take i (ParticleSystem.particles s')
                   ++ drop (S i) (ParticleSystem.particles s)) p))) /\
  ParticleSystem.connections s'
  = ParticleSystem.updateConnections (ParticleSystem.particles s').
Proof.
  cbv zeta. unfold ParticleSystem.update. simpl.
  fold (Spec.visited dt (ParticleSystem.particles s)
          (length (ParticleSystem.particles s))).
  split; [apply visited_length |]. split; [| reflexivity].
  intros i p Hp. now apply visited_final.
Qed.

(** ** C10: what an update leaves alone *)

(** C10.  [Particle.update] and [Particle.applyForce] change nothing but
    position and velocity (and [applyForce] only the velocity): radius, mass
    and base color are as before.  [ParticleSystem.update] keeps the number
    and the order of the particles: the collection has the same length and
    the particle at every index keeps its radius, mass and base color. *)
Theorem update_frame :
  (forall (dt : R) (p : Particle.t), Spec.sameBody p (Particle.update dt p))
  /\
  (forall (f : Vector2f.t) (dt : R) (p : Particle.t),
     Spec.sameBody p (Particle.applyForce f dt p) /\
     Particle.position (Particle.applyForce f dt p) = Particle.position p) /\
  (forall (dt : R) (s : ParticleSystem.t),
     length (ParticleSystem.particles (ParticleSystem.update dt s))
     = length (ParticleSystem.particles s) /\
     Forall2 Spec.sameBody
       (ParticleSystem.particles s)
       (ParticleSystem.particles (ParticleSystem.update dt s))).
Proof.
  split; [exact update_sameBody |]. split.
  - intros f dt p. split; [apply applyForce_sameBody | reflexivity].
  - intros dt s. unfold ParticleSystem.update. simpl.
    fold (Spec.visited dt (ParticleSystem.particles s)
            (length (ParticleSystem.particles s))).
    split; [apply visited_length | apply visited_sameBody].
Qed.

(** ** C3: the pairwise force *)






(** ** [updateConnections] *)

Lemma connect_spec (pi pj : Particle.t) :
  ParticleSystem.connect pi pj
  = if Rlt_dec (Spec.distance pi pj) 100 then Spec.segment pi pj else [].
Proof.
  unfold ParticleSystem.connect.
  replace (sqrt _) with (Spec.distance pi pj)
    by (unfold Spec.distance, Spec.magnitude; simpl; f_equal; ring).
  destruct (Rlt_dec _ _) as [Hlt | _]; [| reflexivity].
  unfold Spec.segment, Spec.alphaFormula, toUint8.
  destruct (Rle_dec 0 _) as [_ | Hneg]; [reflexivity |].
  exfalso. apply Hneg. lra.
Qed.


Lemma foldl_appending {A B : Type} (f : list A -> B -> list A)
    (g : B -> list A) (l : list B) (acc : list A) :
  (forall acc x, f acc x = acc ++ g x) ->
  foldl f acc l = acc ++ (l ≫= g).
Proof.
  intros Hf. revert acc. induction l as [| x l IH]; intros acc.
  - simpl. now rewrite app_nil_r.
  - rewrite bind_cons. simpl. rewrite IH, Hf. now rewrite <- app_assoc.
Qed.


Lemma updateConnections_bind (ps : list Particle.t) :
  ParticleSystem.updateConnections ps
  = seq 0 (length ps)
      ≫= (fun i => seq (S i) (length ps - S i) ≫= Spec.connectAt ps i).
Proof.
  unfold ParticleSystem.updateConnections. cbv zeta.
  rewrite (foldl_appending _
             (fun i => seq (S i) (length ps - S i) ≫= Spec.connectAt ps i)).
  - reflexivity.
  - intros acc i. apply foldl_appending. intros acc' j.
    unfold Spec.connectAt. destruct (ps !! i), (ps !! j);
      now rewrite ?app_nil_r.
Qed.







(** ** The connection alpha *)

Lemma Int_part_monotone (r1 r2 : R) :
  r1 <= r2 -> (Int_part r1 <= Int_part r2)%Z.
Proof.
  intros Hle.
  destruct (base_Int_part r1) as [Hlow _].
  destruct (base_Int_part r2) as [_ Hhigh].
  assert (Hlt : IZR (Int_part r1) < IZR (Int_part r2 + 1))
    by (rewrite plus_IZR; lra).
  apply lt_IZR in Hlt. lia.
Qed.

Lemma Int_part_integer (z : Z) : Int_part (IZR z) = z.
Proof. symmetry. apply Int_part_spec. lra. Qed.


Lemma alpha_range (d : R) :
  0 <= d <= 100 -> (0 <= Int_part (Spec.alphaFormula d) <= 255)%Z.
Proof.
  intros Hd. split.
  - rewrite <- (Int_part_integer 0) at 1.
    apply Int_part_monotone. unfold Spec.alphaFormula. lra.
  - rewrite <- (Int_part_integer 255) at 1.
    apply Int_part_monotone. unfold Spec.alphaFormula. lra.
Qed.

Lemma updateConnections_pair (a b : Particle.t) :
  ParticleSystem.updateConnections [a; b] = ParticleSystem.connect a b.
Proof. reflexivity. Qed.

(** ** C6: the connection list *)



(** ** The divisions *)

















(** ** C9: division by zero *)



(** ** C7: a zero time step *)










(** ** C8: [addParticlesAtMouse] *)



Section Spawning.
Variable RAND_MAX : Z.
Hypothesis RAND_MAX_positive : (0 < RAND_MAX)%Z.


End Spawning.




(** * Further properties of the code *)

(** ** [Particle::limitVelocity] and [Particle::update] *)



(** X2.  Away from the walls and below the speed limit an update is one
    step of the semi-implicit Euler method: the velocity gains
    [GRAVITY * dt] downward, and the position advances by the new
    velocity times [dt]. *)
Theorem update_free_flight (dt : R) (p : Particle.t) :
  let v := Spec.applyGravity dt (Particle.velocity p) in
  let q := Spec.integrate dt (Particle.position p) v in
  Spec.magnitude v <= MAX_SPEED ->
  Particle.radius p <= Vector2f.x q <= IZR WIDTH - Particle.radius p ->
  Particle.radius p <= Vector2f.y q <= IZR HEIGHT - Particle.radius p ->
  Particle.position (Particle.update dt p) = q /\
  Particle.velocity (Particle.update dt p) = v.
Proof.
  intros v q Hslow Hx Hy. rewrite update_fields. cbv zeta.
  fold v. rewrite limitVelocity_slow by exact Hslow. fold q.
  clearbody q v. destruct q as [qx qy], v as [vx vy].
  unfold Particle.bounce. simpl in *.
  do 4 settle_test. now simpl.
Qed.

Lemma update_free_flight_witness :
  Particle.position (Particle.update 1 (Spec.ball 100 100 5))
  = Spec.integrate 1 (Vector2f.mk 100 100)
      (Spec.applyGravity 1 (Vector2f.mk 0 0)) /\
  Particle.velocity (Particle.update 1 (Spec.ball 100 100 5))
  = Spec.applyGravity 1 (Vector2f.mk 0 0).
Proof.
  apply (update_free_flight 1 (Spec.ball 100 100 5)).
  - apply magnitude_at_most; simpl; constants; lra.
  - simpl. constants. lra.
  - simpl. constants. lra.
Defined.



Lemma bounce_reflects (limit : Z) (r pos0 pos vel dt : R) :
  r <= pos0 <= IZR limit - r -> 0 <= dt -> pos = pos0 + vel * dt ->
  (Spec.hitsLow r pos ->
     Particle.bounce limit r pos vel = (r, - vel * DAMPING) /\
     vel < 0 /\ 0 < - vel * DAMPING <= - vel) /\
  (Spec.hitsHigh limit r pos ->
     Particle.bounce limit r pos vel = (IZR limit - r, - vel * DAMPING) /\
     0 < vel /\ - vel <= - vel * DAMPING < 0).
Proof.
  intros Hin Hdt ->. unfold Spec.hitsLow, Spec.hitsHigh, Particle.bounce.
  split; intros Hhit.
  - assert (vel < 0) by nra.
    destruct (Rlt_dec _ _); [| lra]. constants. repeat split; lra.
  - assert (0 < vel) by nra.
    destruct (Rlt_dec _ _); [nra |]. destruct (Rgt_dec _ _); [| lra].
    constants. repeat split; lra.
Qed.

(** X3.  A particle that lies inside the area and hits a wall during an
    update with [dt >= 0] was moving toward that wall; it is put on the
    wall, and its velocity component is reversed, so that it points back
    into the area, and damped by [DAMPING].  This holds for the four
    walls. *)
Theorem wall_hit_reflects_inward (dt : R) (p : Particle.t) :
  Spec.contained p -> 0 <= dt ->
  let v := Particle.limitVelocity
             (Spec.applyGravity dt (Particle.velocity p)) in
  let q := Spec.integrate dt (Particle.position p) v in
  let p' := Particle.update dt p in
  (Spec.hitsLow (Particle.radius p) (Vector2f.x q) ->
     Vector2f.x (Particle.position p') = Particle.radius p /\
     Vector2f.x (Particle.velocity p') = - Vector2f.x v * DAMPING /\
     Vector2f.x v < 0 < Vector2f.x (Particle.velocity p')) /\
  (Spec.hitsHigh WIDTH (Particle.radius p) (Vector2f.x q) ->
     Vector2f.x (Particle.position p') = IZR WIDTH - Particle.radius p /\
     Vector2f.x (Particle.velocity p') = - Vector2f.x v * DAMPING /\
     Vector2f.x (Particle.velocity p') < 0 < Vector2f.x v) /\
  (Spec.hitsLow (Particle.radius p) (Vector2f.y q) ->
     Vector2f.y (Particle.position p') = Particle.radius p /\
     Vector2f.y (Particle.velocity p') = - Vector2f.y v * DAMPING /\
     Vector2f.y v < 0 < Vector2f.y (Particle.velocity p')) /\
  (Spec.hitsHigh HEIGHT (Particle.radius p) (Vector2f.y q) ->
     Vector2f.y (Particle.position p') = IZR HEIGHT - Particle.radius p /\
     Vector2f.y (Particle.velocity p') = - Vector2f.y v * DAMPING /\
     Vector2f.y (Particle.velocity p') < 0 < Vector2f.y v).
Proof.
  intros [Hx Hy] Hdt v q p'. unfold p'. rewrite update_fields. cbv zeta.
  fold v. fold q. cbn [Particle.position Particle.velocity].
  destruct (bounce_reflects WIDTH (Particle.radius p)
              (Vector2f.x (Particle.position p)) (Vector2f.x q)
              (Vector2f.x v) dt Hx Hdt eq_refl) as [Hxl Hxh].
  destruct (bounce_reflects HEIGHT (Particle.radius p)
              (Vector2f.y (Particle.position p)) (Vector2f.y q)
              (Vector2f.y v) dt Hy Hdt eq_refl) as [Hyl Hyh].
  split; [| split; [| split]]; intros Hhit;
    first [ destruct (Hxl Hhit) as (Hb & ? & ?)
          | destruct (Hxh Hhit) as (Hb & ? & ?)
          | destruct (Hyl Hhit) as (Hb & ? & ?)
          | destruct (Hyh Hhit) as (Hb & ? & ?) ];
    rewrite Hb; simpl; lra.
Qed.

Lemma wall_hit_reflects_inward_witness :
  Spec.contained (Spec.ball 5 795 5) /\
  Vector2f.y (Particle.position (Particle.update 1 (Spec.ball 5 795 5)))
  = IZR HEIGHT - 5 /\
  Vector2f.y (Particle.velocity (Particle.update 1 (Spec.ball 5 795 5))) < 0.
Proof.
  assert (Hc : Spec.contained (Spec.ball 5 795 5))
    by (split; simpl; constants; lra).
  assert (Hdt : 0 <= 1) by lra.
  split; [exact Hc |].
  destruct (wall_hit_reflects_inward 1 (Spec.ball 5 795 5) Hc Hdt)
    as (_ & _ & _ & Hfloor).
  destruct Hfloor as (Hpos & _ & Hvel & _).
  - unfold Spec.hitsHigh. rewrite limitVelocity_slow
      by (apply magnitude_at_most; simpl; constants; lra).
    simpl. constants. lra.
  - split; [exact Hpos | exact Hvel].
Defined.








(** ** The forces of the pairwise pass *)

Lemma distance_symmetric (a b : Particle.t) :
  Spec.distance a b = Spec.distance b a.
Proof. unfold Spec.distance, Spec.magnitude. simpl. f_equal. ring. Qed.

Lemma forceOn_near (particle other : Particle.t) :
  0 < Spec.distance particle other < 100 ->
  Spec.forceOn particle other
  = Vector2f.mul
      (Vector2f.div
         (Vector2f.sub (Particle.position other)
            (Particle.position particle))
         (Spec.distance particle other))
      (Spec.strength (Spec.distance particle other)).
Proof. intros Hd. unfold Spec.forceOn. now rewrite pairForce_near. Qed.

Lemma forceOn_outside (particle other : Particle.t) :
  ~ 0 < Spec.distance particle other < 100 ->
  Spec.forceOn particle other = Vector2f.mk 0 0.
Proof. intros Hd. unfold Spec.forceOn. now rewrite pairForce_outside. Qed.

Lemma forceOn_positions (a a' b : Particle.t) :
  Particle.position a = Particle.position a' ->
  Spec.forceOn a b = Spec.forceOn a' b.
Proof.
  intros Hpos. unfold Spec.forceOn, ParticleSystem.pairForce.
  now rewrite Hpos.
Qed.

Lemma interact_velocity (dt : R) (particle other : Particle.t) :
  Particle.velocity (ParticleSystem.interact dt particle other)
  = Vector2f.add (Particle.velocity particle)
      (Vector2f.mul (Spec.forceOn particle other)
         (dt / Particle.mass particle)).
Proof.
  unfold ParticleSystem.interact, Spec.forceOn.
  destruct (ParticleSystem.pairForce particle other); [reflexivity |].
  destruct (Particle.velocity particle) as [vx vy].
  unfold Vector2f.add, Vector2f.mul. simpl. f_equal; ring.
Qed.

(** X6.  The forces of one pairwise pass superpose: after the forces of
    any list of other particles have been applied, the position is as
    before and the velocity has grown by the sum of the single forces
    times [dt / mass]. *)
Theorem forces_superpose (dt : R) (others : list Particle.t)
    (particle : Particle.t) :
  Particle.position (Spec.forcesFrom dt others particle)
  = Particle.position particle /\
  Particle.velocity (Spec.forcesFrom dt others particle)
  = Vector2f.add (Particle.velocity particle)
      (Vector2f.mul (Spec.netForce particle others)
         (dt / Particle.mass particle)).
Proof.
  split; [apply forcesFrom_position |].
  induction others as [| other rest IH] using rev_ind.
  - simpl. destruct (Particle.velocity particle) as [vx vy].
    unfold Vector2f.add, Vector2f.mul. simpl. f_equal; ring.
  - unfold Spec.forcesFrom, Spec.netForce in *. rewrite !foldl_app. simpl.
    rewrite interact_velocity, IH.
    fold (Spec.forcesFrom dt rest particle).
    rewrite (forceOn_positions _ particle)
      by apply forcesFrom_position.
    destruct (forcesFrom_sameBody dt rest particle) as (_ & -> & _).
    unfold Vector2f.add, Vector2f.mul. simpl. f_equal; ring.
Qed.

(** X7.  The forces of a pair are opposite: what [other] exerts on
    [particle] is the opposite of what [particle] exerts on [other], at
    every distance. *)
Theorem forces_are_opposite (particle other : Particle.t) :
  Spec.forceOn particle other = Spec.opposite (Spec.forceOn other particle).
Proof.
  destruct (Rlt_dec 0 (Spec.distance particle other)) as [H0 | H0];
    [destruct (Rlt_dec (Spec.distance particle other) 100)
       as [H100 | H100] |].
  - rewrite forceOn_near by lra.
    rewrite (forceOn_near other particle)
      by (rewrite (distance_symmetric other particle); lra).
    rewrite (distance_symmetric other particle).
    unfold Spec.opposite, Vector2f.mul, Vector2f.div, Vector2f.sub. simpl.
    f_equal; field; lra.
  - rewrite !forceOn_outside
      by (rewrite ?(distance_symmetric other particle); lra).
    unfold Spec.opposite. simpl. f_equal; ring.
  - rewrite !forceOn_outside
      by (rewrite ?(distance_symmetric other particle); lra).
    unfold Spec.opposite. simpl. f_equal; ring.
Qed.



(** ** The connection list, counted *)








Lemma elem_of_connectAt (ps : list Particle.t) (i j : nat) (v : Vertex.t) :
  v ∈ Spec.connectAt ps i j ->
  (exists p, p ∈ ps /\ Vertex.position v = Particle.position p) /\
  exists alpha, Spec.channel alpha /\
                Vertex.color v = Color.mk 255 255 255 alpha.
Proof.
  unfold Spec.connectAt.
  destruct (ps !! i) as [pi |] eqn:Hi; [| intros H; inversion H].
  destruct (ps !! j) as [pj |] eqn:Hj; [| intros H; inversion H].
  rewrite connect_spec.
  destruct (Rlt_dec _ _) as [Hlt | _]; [| intros H; inversion H].
  pose proof (distance_nonneg pi pj) as H0.
  assert (Halpha : Spec.channel
                     (Int_part (Spec.alphaFormula (Spec.distance pi pj))))
    by (apply alpha_range; lra).
  apply list_elem_of_lookup_2 in Hi, Hj.
  unfold Spec.segment. intros Hv.
  apply elem_of_cons in Hv as [-> | Hv];
    [| apply list_elem_of_singleton in Hv as ->]; simpl; eauto 10.
Qed.

(** X10.  Every vertex of the connection list sits on a particle of the
    collection and is white with an alpha that fits an 8-bit channel. *)
Theorem connection_vertices_valid (ps : list Particle.t) (v : Vertex.t) :
  v ∈ ParticleSystem.updateConnections ps ->
  (exists p, p ∈ ps /\ Vertex.position v = Particle.position p) /\
  exists alpha, Spec.channel alpha /\
                Vertex.color v = Color.mk 255 255 255 alpha.
Proof.
  rewrite updateConnections_bind. intros Hv.
  apply list_elem_of_bind in Hv as (i & Hv & _).
  apply list_elem_of_bind in Hv as (j & Hv & _).
  now apply elem_of_connectAt in Hv.
Qed.

Lemma connections_at_fifty :
  ParticleSystem.updateConnections [Spec.ball 0 0 1; Spec.ball 50 0 1]
  = Spec.segment (Spec.ball 0 0 1) (Spec.ball 50 0 1).
Proof.
  rewrite updateConnections_pair, connect_spec.
  rewrite (distance_is _ _ 50) by (simpl; lra).
  destruct (Rlt_dec 50 100); [reflexivity | lra].
Qed.

Lemma connection_vertices_valid_witness :
  exists alpha, Spec.channel alpha /\
    Vertex.color
      (Vertex.mk (Vector2f.mk 0 0)
         (Color.mk 255 255 255
            (Int_part
               (Spec.alphaFormula
                  (Spec.distance (Spec.ball 0 0 1) (Spec.ball 50 0 1))))))
    = Color.mk 255 255 255 alpha.
Proof.
  apply (proj2 (connection_vertices_valid
                  [Spec.ball 0 0 1; Spec.ball 50 0 1] _
                  ltac:(rewrite connections_at_fifty;
                        apply list_elem_of_here))).
Defined.

(** ** Spawning and the generator *)

Lemma spawn_cursor (RAND_MAX mouseX mouseY : Z) (s : ParticleSystem.t)
    (g : Rand.state) :
  Rand.tape (snd (ParticleSystem.spawn RAND_MAX mouseX mouseY s g))
  = Rand.tape g /\
  Rand.cursor (snd (ParticleSystem.spawn RAND_MAX mouseX mouseY s g))
  = (Rand.cursor g + 6)%nat /\
  length (ParticleSystem.particles
            (fst (ParticleSystem.spawn RAND_MAX mouseX mouseY s g)))
  = S (length (ParticleSystem.particles s)).
Proof.
  split; [reflexivity |]. split; simpl; [lia |].
  rewrite length_app. simpl. lia.
Qed.

Lemma spawnLoop_cursor (RAND_MAX : Z) (n : nat) (mouseX mouseY : Z)
    (s : ParticleSystem.t) (g : Rand.state) :
  Rand.tape (snd (ParticleSystem.spawnLoop RAND_MAX n mouseX mouseY s g))
  = Rand.tape g /\
  Rand.cursor (snd (ParticleSystem.spawnLoop RAND_MAX n mouseX mouseY s g))
  = (Rand.cursor g + 6 * n)%nat /\
  length (ParticleSystem.particles
            (fst (ParticleSystem.spawnLoop RAND_MAX n mouseX mouseY s g)))
  = (length (ParticleSystem.particles s) + n)%nat.
Proof.
  revert s g. induction n as [| n IH]; intros s g.
  - simpl. repeat split; lia.
  - cbn [ParticleSystem.spawnLoop]. unfold Rand.bind.
    destruct (spawn_cursor RAND_MAX mouseX mouseY s g)
      as (Htape & Hcur & Hlen).
    destruct (ParticleSystem.spawn RAND_MAX mouseX mouseY s g) as [s1 g1].
    simpl in Htape, Hcur, Hlen.
    destruct (IH s1 g1) as (-> & -> & ->).
    rewrite Htape, Hcur, Hlen. repeat split; lia.
Qed.

(** X12.  [addParticlesAtMouse] with count [n] reads exactly [6 * n] draws
    of [rand()] (three for the placement and radius, three for the base
    color of each particle) and adds [n] particles; with a count of zero
    or below it reads nothing and leaves the system as it is. *)
Theorem addParticlesAtMouse_draws (RAND_MAX mouseX mouseY count : Z)
    (s : ParticleSystem.t) (g : Rand.state) :
  let r := ParticleSystem.addParticlesAtMouse RAND_MAX mouseX mouseY count s g
  in
  Rand.tape (snd r) = Rand.tape g /\
  Rand.cursor (snd r) = (Rand.cursor g + 6 * Z.to_nat count)%nat /\
  length (ParticleSystem.particles (fst r))
  = (length (ParticleSystem.particles s) + Z.to_nat count)%nat /\
  ((count <= 0)%Z -> r = (s, g)).
Proof.
  cbv zeta. unfold ParticleSystem.addParticlesAtMouse.
  destruct (spawnLoop_cursor RAND_MAX (Z.to_nat count) mouseX mouseY s g)
    as (Htape & Hcur & Hlen).
  repeat split; try assumption.
  intros Hcount. replace (Z.to_nat count) with 0%nat by lia. reflexivity.
Qed.

Lemma spawnLoop_add (RAND_MAX : Z) (m n : nat) (mouseX mouseY : Z)
    (s : ParticleSystem.t) (g : Rand.state) :
  ParticleSystem.spawnLoop RAND_MAX (m + n) mouseX mouseY s g
  = let (s', g') := ParticleSystem.spawnLoop RAND_MAX m mouseX mouseY s g in
    ParticleSystem.spawnLoop RAND_MAX n mouseX mouseY s' g'.
Proof.
  revert s g. induction m as [| m IH]; intros s g; [reflexivity |].
  cbn [Nat.add ParticleSystem.spawnLoop]. unfold Rand.bind.
  destruct (ParticleSystem.spawn RAND_MAX mouseX mouseY s g) as [s1 g1].
  apply IH.
Qed.

(** X13.  Spawning composes: adding [m] and then [n] particles at one
    point, with the generator passed on, is adding [m + n] at once. *)
Theorem addParticlesAtMouse_split (RAND_MAX mouseX mouseY m n : Z)
    (s : ParticleSystem.t) (g : Rand.state) :
  (0 <= m)%Z -> (0 <= n)%Z ->
  ParticleSystem.addParticlesAtMouse RAND_MAX mouseX mouseY (m + n) s g
  = let (s', g') :=
      ParticleSystem.addParticlesAtMouse RAND_MAX mouseX mouseY m s g in
    ParticleSystem.addParticlesAtMouse RAND_MAX mouseX mouseY n s' g'.
Proof.
  intros Hm Hn. unfold ParticleSystem.addParticlesAtMouse.
  rewrite Z2Nat.inj_add by assumption. apply spawnLoop_add.
Qed.

Lemma addParticlesAtMouse_split_witness :
  ParticleSystem.addParticlesAtMouse 32767 100 100 (2 + 3)
    ParticleSystem.empty Spec.zeroTape
  = let (s', g') :=
      ParticleSystem.addParticlesAtMouse 32767 100 100 2
        ParticleSystem.empty Spec.zeroTape in
    ParticleSystem.addParticlesAtMouse 32767 100 100 3 s' g'.
Proof.
  apply (addParticlesAtMouse_split 32767 100 100 2 3); lia.
Defined.

(** X14.  A particle is born at rest with [mass = radius * radius], and,
    when the draws of [rand()] are not negative, with a base color whose
    three channels lie between 0 and 254 (never 255) and whose alpha is
    255; the constructor reads three draws. *)
Theorem new_particle (x y r : R) (g : Rand.state) :
  (forall k, (0 <= Rand.tape g k)%Z) ->
  let p := fst (Particle.new x y r g) in
  Particle.velocity p = Vector2f.mk 0 0 /\
  Particle.mass p = Particle.radius p * Particle.radius p /\
  (0 <= Color.r (Particle.baseColor p) <= 254)%Z /\
  (0 <= Color.g (Particle.baseColor p) <= 254)%Z /\
  (0 <= Color.b (Particle.baseColor p) <= 254)%Z /\
  Color.a (Particle.baseColor p) = 255%Z /\
  Rand.cursor (snd (Particle.new x y r g)) = (Rand.cursor g + 3)%nat.
Proof.
  intros Hg. cbv zeta. simpl.
  assert (Hrem : forall c, (0 <= c)%Z -> (0 <= Z.rem c 255 <= 254)%Z).
  { intros c Hc. pose proof (Z.rem_bound_pos c 255 Hc). lia. }
  repeat split; try apply Hrem; try apply Hg; lia.
Qed.

Lemma new_particle_witness :
  (0 <= Color.r (Particle.baseColor
                   (fst (Particle.new 1 2 3 (Spec.constantTape 1000))))
   <= 254)%Z.
Proof.
  apply (new_particle 1 2 3 (Spec.constantTape 1000)).
  intros k. simpl. lia.
Defined.

(** ** Drawing *)

Lemma fmod_2_range (x : R) : 0 <= x -> 0 <= fmod x 2 < 2.
Proof.
  intros Hx. unfold fmod, truncate.
  destruct (Rle_dec 0 (x / 2)) as [_ | Hneg]; [| lra].
  destruct (base_Int_part (x / 2)) as [Hlow Hhigh]. lra.
Qed.

Lemma toUint8_range (f : R) : 0 <= f <= 255 -> Spec.channel (toUint8 f).
Proof.
  intros [H0 H255]. unfold toUint8, Spec.channel.
  destruct (Rle_dec 0 f) as [_ | Hneg]; [| lra].
  split.
  - rewrite <- (Int_part_integer 0) at 1. now apply Int_part_monotone.
  - rewrite <- (Int_part_integer 255) at 1. now apply Int_part_monotone.
Qed.

Lemma toUint8_integer (z : Z) : (0 <= z)%Z -> toUint8 (IZR z) = z.
Proof.
  intros Hz. unfold toUint8. apply IZR_le in Hz.
  destruct (Rle_dec 0 (IZR z)); [apply Int_part_integer | lra].
Qed.

(** The three channel values [HSVtoRGB] casts, for [Rs], [Gs], [Bs] taken
    from [C], [X] and 0 in some order. *)
Lemma chroma_range (H S V : R) :
  0 <= H -> 0 <= S <= 1 -> 0 <= V <= 1 ->
  let C := V * S in
  let X := C * (1 - Rabs (fmod (H / 60) 2 - 1)) in
  let m := V - C in
  0 <= (C + m) * 255 <= 255 /\
  0 <= (X + m) * 255 <= 255 /\
  0 <= (0 + m) * 255 <= 255.
Proof.
  intros HH HS HV C X m.
  assert (HC : 0 <= C <= V) by (unfold C; nra).
  assert (Ht : 0 <= 1 - Rabs (fmod (H / 60) 2 - 1) <= 1).
  { pose proof (fmod_2_range (H / 60) ltac:(lra)) as Hf.
    pose proof (Rabs_pos (fmod (H / 60) 2 - 1)).
    assert (Rabs (fmod (H / 60) 2 - 1) <= 1) by (apply Rabs_le; lra).
    lra. }
  assert (HX : 0 <= X <= C) by (unfold X; nra).
  unfold m. lra.
Qed.

(** X15.  For a hue that is not negative and a saturation and value
    between 0 and 1, every channel [HSVtoRGB] computes fits an 8-bit
    channel before it is cast, and the alpha is 255. *)
Theorem HSVtoRGB_channels (H S V : R) :
  0 <= H -> 0 <= S <= 1 -> 0 <= V <= 1 ->
  Spec.channel (Color.r (Particle.HSVtoRGB H S V)) /\
  Spec.channel (Color.g (Particle.HSVtoRGB H S V)) /\
  Spec.channel (Color.b (Particle.HSVtoRGB H S V)) /\
  Color.a (Particle.HSVtoRGB H S V) = 255%Z.
Proof.
  intros HH HS HV.
  destruct (chroma_range H S V HH HS HV) as (HC & HX & H0).
  unfold Particle.HSVtoRGB.
  destruct (Particle.inSector H 0 60);
    [| destruct (Particle.inSector H 60 120);
       [| destruct (Particle.inSector H 120 180);
          [| destruct (Particle.inSector H 180 240);
             [| destruct (Particle.inSector H 240 300)]]]];
    simpl; repeat split; now apply toUint8_range.
Qed.

Lemma HSVtoRGB_channels_witness :
  Spec.channel (Color.r (Particle.HSVtoRGB 90 1 1)).
Proof.
  apply (HSVtoRGB_channels 90 1 1); lra.
Defined.

Lemma draw_color (p : Particle.t) :
  CircleShape.fillColor (Particle.draw p)
  = Particle.HSVtoRGB
      (Spec.magnitude (Particle.velocity p) / MAX_SPEED * 360) 1 1.
Proof. reflexivity. Qed.

(** X16.  Whatever the particle, the circle [Particle::draw] hands to the
    window has the particle's radius, a bounding box centred on the
    particle, and a fully saturated fill color: the channels fit 8 bits,
    the largest is 255 and the smallest is 0. *)
Theorem draw_circle (p : Particle.t) :
  let shape := Particle.draw p in
  let c := CircleShape.fillColor shape in
  CircleShape.radius shape = Particle.radius p /\
  Vector2f.add (CircleShape.position shape)
    (Vector2f.mk (CircleShape.radius shape) (CircleShape.radius shape))
  = Particle.position p /\
  Spec.channel (Color.r c) /\ Spec.channel (Color.g c) /\
  Spec.channel (Color.b c) /\ Color.a c = 255%Z /\
  Z.max (Color.r c) (Z.max (Color.g c) (Color.b c)) = 255%Z /\
  Z.min (Color.r c) (Z.min (Color.g c) (Color.b c)) = 0%Z.
Proof.
  cbv zeta. split; [reflexivity |]. split.
  { destruct p as [[px py] v r c m]. unfold Vector2f.add. simpl.
    f_equal; ring. }
  rewrite draw_color.
  set (H := Spec.magnitude (Particle.velocity p) / MAX_SPEED * 360).
  assert (HH : 0 <= H).
  { unfold H. pose proof (magnitude_nonneg (Particle.velocity p)).
    constants. lra. }
  destruct (chroma_range H 1 1 HH ltac:(lra) ltac:(lra)) as (_ & HX & _).
  apply toUint8_range in HX. unfold Spec.channel in *.
  assert (Hfull : toUint8 ((1 * 1 + (1 - 1 * 1)) * 255) = 255%Z)
    by (replace ((1 * 1 + (1 - 1 * 1)) * 255) with (IZR 255) by lra;
        now apply toUint8_integer).
  assert (Hnone : toUint8 ((0 + (1 - 1 * 1)) * 255) = 0%Z)
    by (replace ((0 + (1 - 1 * 1)) * 255) with (IZR 0) by lra;
        now apply toUint8_integer).
  unfold Particle.HSVtoRGB.
  destruct (Particle.inSector H 0 60);
    [| destruct (Particle.inSector H 60 120);
       [| destruct (Particle.inSector H 120 180);
          [| destruct (Particle.inSector H 180 240);
             [| destruct (Particle.inSector H 240 300)]]]];
    simpl; rewrite ?Hfull, ?Hnone; lia.
Qed.


(** ** The main loop *)



Lemma addParticle_spec (x y r : R) (s : ParticleSystem.t) (g : Rand.state) :
  exists p,
    ParticleSystem.particles (fst (ParticleSystem.addParticle x y r s g))
    = ParticleSystem.particles s ++ [p] /\
    Particle.radius p = r /\ Particle.mass p = r * r /\
    Rand.tape (snd (ParticleSystem.addParticle x y r s g)) = Rand.tape g.
Proof. eexists. repeat split. Qed.


Lemma populate_length (dis : nat -> R) (n k : nat) (s : ParticleSystem.t)
    (g : Rand.state) :
  length (ParticleSystem.particles (fst (Main.populate dis n k s g)))
  = (length (ParticleSystem.particles s) + n)%nat.
Proof.
  revert k s g. induction n as [| n IH]; intros k s g; [simpl; lia |].
  cbn [Main.populate]. unfold Rand.bind.
  destruct (addParticle_spec (dis k) (dis (k + 1)%nat)
              (3 + dis (k + 2)%nat / 100) s g) as (p & Hps & _).
  destruct (ParticleSystem.addParticle _ _ _ s g) as [s1 g1].
  simpl in Hps. rewrite IH, Hps, length_app. simpl. lia.
Qed.

Section Running.
Variable RAND_MAX : Z.
Hypothesis RAND_MAX_positive : (0 < RAND_MAX)%Z.




Lemma pollEvents_count (evs : list Main.Event) (s : ParticleSystem.t)
    (g : Rand.state) :
  length
    (ParticleSystem.particles (fst (fst (Main.pollEvents RAND_MAX evs s g))))
  = (length (ParticleSystem.particles s) + 10 * Spec.pressesIn evs)%nat /\
  snd (fst (Main.pollEvents RAND_MAX evs s g)) = negb (Spec.closes evs).
Proof.
  revert s g. induction evs as [| ev evs IH]; intros s g;
    [simpl; split; [lia | reflexivity] |].
  destruct ev as [| mouseX mouseY |]; cbn [Main.pollEvents Spec.pressesIn
                                          Spec.closes];
    [simpl; split; [lia | reflexivity] | | apply IH].
  unfold Rand.bind, ParticleSystem.addParticlesAtMouse.
  destruct (spawnLoop_cursor RAND_MAX (Z.to_nat 10) mouseX mouseY s g)
    as (_ & _ & Hlen).
  destruct (ParticleSystem.spawnLoop RAND_MAX (Z.to_nat 10) mouseX mouseY s g)
    as [s1 g1].
  simpl in Hlen. destruct (IH s1 g1) as [Hcount Hflag].
  split; [rewrite Hcount, Hlen; lia | exact Hflag].
Qed.
End Running.


Section RunningMain.
Variable RAND_MAX : Z.
Hypothesis RAND_MAX_positive : (0 < RAND_MAX)%Z.



Lemma loop_count (frames : list Main.Frame) (s : ParticleSystem.t)
    (g : Rand.state) :
  length (ParticleSystem.particles (fst (Main.loop RAND_MAX frames s g)))
  = (length (ParticleSystem.particles s)
     + 10 * Spec.pressesHandled frames)%nat.
Proof.
  revert s g. induction frames as [| f rest IH]; intros s g;
    [simpl; lia |].
  cbn [Main.loop Spec.pressesHandled]. unfold Main.frame, Rand.bind.
  destruct (pollEvents_count RAND_MAX (Main.events f) s g)
    as [Hcount Hflag].
  destruct (Main.pollEvents RAND_MAX (Main.events f) s g) as [[s1 open] g1].
  unfold Rand.ret. cbn [fst snd] in *. subst open.
  assert (Hlen : length (ParticleSystem.particles
                           (ParticleSystem.update (Main.dt f) s1))
                 = length (ParticleSystem.particles s1)).
  { unfold ParticleSystem.update. simpl.
    fold (Spec.visited (Main.dt f) (ParticleSystem.particles s1)
            (length (ParticleSystem.particles s1))).
    apply visited_length. }
  destruct (Spec.closes (Main.events f)); unfold Rand.ret;
    cbn [fst snd negb].
  - rewrite Hlen, Hcount. lia.
  - rewrite IH, Hlen, Hcount. lia.
Qed.
End RunningMain.



(** X19.  [main] starts with 100 particles and every handled left press
    adds 10; nothing ever removes one.  After any frames the collection
    holds [100 + 10 * presses] particles, the presses counted up to the
    event that closes the window. *)
Theorem main_particle_count (RAND_MAX : Z) (dis : nat -> R)
    (frames : list Main.Frame) (g : Rand.state) :
  length (ParticleSystem.particles (fst (Main.main RAND_MAX dis frames g)))
  = (100 + 10 * Spec.pressesHandled frames)%nat.
Proof.
  unfold Main.main, Rand.bind.
  pose proof (populate_length dis 100 0 ParticleSystem.empty g) as H0.
  destruct (Main.populate dis 100 0 ParticleSystem.empty g) as [s0 g0].
  simpl in H0. rewrite loop_count, H0. lia.
Qed.

(** ** The size of the pair force *)




(** ** What a frame draws *)

Lemma updateConnections_vertex (ps : list Particle.t) (v : Vertex.t) :
  v ∈ ParticleSystem.updateConnections ps ->
  exists p, p ∈ ps /\ Vertex.position v = Particle.position p.
Proof.
  rewrite updateConnections_bind. intros Hv.
  apply list_elem_of_bind in Hv as (i & Hv & _).
  apply list_elem_of_bind in Hv as (j & Hv & _).
  now apply elem_of_connectAt in Hv as [Hp _].
Qed.

(** X21.  What [ParticleSystem::draw] draws after an update hangs
    together: the lines come first, then one circle per particle in
    collection order, and every end of a line is the centre of one of the
    circles drawn. *)
Theorem lines_join_circle_centres (dt : R) (s : ParticleSystem.t) :
  let s' := ParticleSystem.update dt s in
  exists circles,
    ParticleSystem.draw s'
    = ParticleSystem.Lines (ParticleSystem.connections s') :: circles /\
    length circles = length (ParticleSystem.particles s) /\
    forall v, v ∈ ParticleSystem.connections s' ->
      exists shape,
        ParticleSystem.Circle shape ∈ circles /\
        Vertex.position v
        = Vector2f.add (CircleShape.position shape)
            (Vector2f.mk (CircleShape.radius shape)
               (CircleShape.radius shape)).
Proof.
  intros s'. eexists. split; [reflexivity |]. split.
  - rewrite length_map. unfold s', ParticleSystem.update. simpl.
    fold (Spec.visited dt (ParticleSystem.particles s)
            (length (ParticleSystem.particles s))).
    apply visited_length.
  - intros v Hv.
    apply (updateConnections_vertex (ParticleSystem.particles s')) in Hv
      as (p & Hp & Hpos).
    exists (Particle.draw p). split.
    + apply (list_elem_of_fmap_2
               (fun p => ParticleSystem.Circle (Particle.draw p))).
      exact Hp.
    + rewrite Hpos. destruct p as [[px py] vel r c m].
      unfold Vector2f.add. simpl. f_equal; ring.
Qed.
